(** * QBDI PatchDSL value types (src/Patch/Types.h)

    A shallow embedding of the operand types of the patch DSL: the two
    register handles [RegLLVM] and [Reg], [Shadow] with its reserved tags,
    [Constant], [Offset], [Temp], [Operand] and the [RelocatableInstTag]
    enumeration, followed by the properties of their constructors,
    conversions and comparison operators.

    C++ integers are integers of [Z] with the wrap-around of their type
    written out.  What Types.h only includes ([rword] from QBDI/State.h,
    [Context] from ExecBlock/Context.h, [GPR_ID] from Patch/Register.h) is
    gathered in a [Target] record the definitions are parametrised by. *)

From stdpp Require Import base numbers option list.

Local Open Scope Z_scope.

(** ** Fixed-width integer conversions *)

Module CInt.

(** Conversion to an unsigned type of [bits] bits. *)
Definition to_unsigned (bits x : Z) : Z := x mod 2 ^ bits.

(** Conversion to a signed two's complement type of [bits] bits. *)
Definition to_signed (bits x : Z) : Z :=
  let u := to_unsigned bits x in
  if u <? 2 ^ (bits - 1) then u else u - 2 ^ bits.

Definition to_uint16 : Z -> Z := to_unsigned 16.
Definition to_unsigned_int : Z -> Z := to_unsigned 32.
Definition to_int64 : Z -> Z := to_signed 64.

Definition is_uint16 (x : Z) : Prop := 0 <= x < 2 ^ 16.
Definition is_unsigned_int (x : Z) : Prop := 0 <= x < 2 ^ 32.

End CInt.

(** ** struct RegLLVM *)

Module RegLLVM.

Record t : Set := mk { id : Z }.

(** [RegLLVM(unsigned int id = 0) : id(id)] *)
Definition ctor (i : Z) : t := {| id := CInt.to_unsigned_int i |}.
Definition ctor_default : t := ctor 0.

(** [unsigned int getValue() const { return id; }] *)
Definition getValue (r : t) : Z := id r.

(** [bool operator==(const RegLLVM &o) const { return id == o.id; }] *)
Definition eq (r o : t) : bool := id r =? id o.

(** [bool operator!=(const RegLLVM &o) const { return id != o.id; }] *)
Definition ne (r o : t) : bool := negb (id r =? id o).

(** [bool operator<(const RegLLVM &o) const { return id < o.id; }] *)
Definition lt (r o : t) : bool := id r <? id o.

(** [bool operator==(unsigned int id, const RegLLVM &reg) { return reg == id; }]
    The right operand of [reg == id] is the temporary [RegLLVM(id)]. *)
Definition uint_eq (i : Z) (reg : t) : bool := eq reg (ctor i).

(** [bool operator!=(unsigned int id, const RegLLVM &reg) { return reg != id; }] *)
Definition uint_ne (i : Z) (reg : t) : bool := ne reg (ctor i).

End RegLLVM.

(** ** The target: what Types.h takes from other headers *)

Record Target : Type := {
  (** [sizeof(rword)], in bytes; [rword] is declared in QBDI/State.h. *)
  sizeof_rword : Z;
  (** [sizeof(size_t)], in bytes: the type of [offsetof] and [sizeof]. *)
  sizeof_size_t : Z;
  (** [offsetof(Context, gprState)]; [Context] is ExecBlock/Context.h. *)
  offsetof_Context_gprState : Z;
  (** The table [GPR_ID] of Patch/Register.h. *)
  GPR_ID : list RegLLVM.t
}.

Section WithTarget.

Variable T : Target.

Definition rword_bits : Z := 8 * sizeof_rword T.
Definition size_t_bits : Z := 8 * sizeof_size_t T.

Definition to_rword : Z -> Z := CInt.to_unsigned rword_bits.
Definition to_size_t : Z -> Z := CInt.to_unsigned size_t_bits.

Definition is_rword (x : Z) : Prop := 0 <= x < 2 ^ rword_bits.

(** Number of entries of [GPR_ID]. *)
Definition NUM_GPR : Z := Z.of_nat (length (GPR_ID T)).

(** [GPR_ID[i]]: reading past the end of the table has no defined
    result. *)
Definition GPR_ID_at (i : Z) : option RegLLVM.t :=
  if i <? 0 then None else GPR_ID T !! Z.to_nat i.

(** First byte after the saved registers [GPR_ID] names, counted from the
    start of the [Context]. *)
Definition gprState_end : Z :=
  offsetof_Context_gprState T + sizeof_rword T * NUM_GPR.

(** The saved registers lie inside an object the target can hold: their
    offsets are values of [size_t] and of [rword]. *)
Record layout_ok : Prop := {
  rword_nonempty : 0 < sizeof_rword T;
  gprState_nonneg : 0 <= offsetof_Context_gprState T;
  gprState_in_size_t : gprState_end <= 2 ^ size_t_bits;
  gprState_in_rword : gprState_end <= 2 ^ rword_bits
}.

(** The offsets of the saved registers are values of [int64_t] too. *)
Definition layout_in_int64 : Prop := gprState_end <= 2 ^ 63.

End WithTarget.

(** ** struct Reg *)

Module Reg.

Record t : Set := mk { id : Z }.

(** [Reg(unsigned int id) : id(id)] *)
Definition ctor (i : Z) : t := {| id := CInt.to_unsigned_int i |}.

(** [unsigned int getID() const { return id; }] *)
Definition getID (r : t) : Z := id r.

(** [bool operator<(const Reg &o) const { return id < o.id; }] *)
Definition lt (r o : t) : bool := id r <? id o.

Section WithTarget.

Variable T : Target.

(** [id] is an index of the GPR table. *)
Definition valid (r : t) : Prop := 0 <= id r < NUM_GPR T.

(** [operator RegLLVM() const { return GPR_ID[id]; }] *)
Definition to_RegLLVM (r : t) : option RegLLVM.t := GPR_ID_at T (id r).

(** [unsigned int getValue() const { return GPR_ID[id].getValue(); }] *)
Definition getValue (r : t) : option Z :=
  RegLLVM.getValue <$> GPR_ID_at T (id r).

(** [rword offset() const
      { return offsetof(Context, gprState) + sizeof(rword) * id; }]
    The sum is computed in [size_t], to which [id] is converted, and
    the result converted to [rword]. *)
Definition offset (r : t) : Z :=
  to_rword T
    (to_size_t T
       (offsetof_Context_gprState T
        + to_size_t T (sizeof_rword T * to_size_t T (id r)))).

(** The expression [a == r] with [a] a [RegLLVM] and [r] a [Reg]:
    [RegLLVM::operator==] on [r] converted by [operator RegLLVM]. *)
Definition RegLLVM_eq_Reg (a : RegLLVM.t) (r : t) : option bool :=
  RegLLVM.eq a <$> to_RegLLVM r.

(** Likewise [a != r]. *)
Definition RegLLVM_ne_Reg (a : RegLLVM.t) (r : t) : option bool :=
  RegLLVM.ne a <$> to_RegLLVM r.

(** [bool operator==(const RegLLVM &o) const { return o == *this; }] *)
Definition eq_RegLLVM (r : t) (o : RegLLVM.t) : option bool :=
  RegLLVM_eq_Reg o r.

(** [bool operator!=(const RegLLVM &o) const { return o != *this; }] *)
Definition ne_RegLLVM (r : t) (o : RegLLVM.t) : option bool :=
  RegLLVM_ne_Reg o r.

(** The expression [r == s] on two [Reg]: the only equality operator
    of [Reg] that is not deleted takes a [RegLLVM], so [s] is first
    converted by [operator RegLLVM]. *)
Definition eq (r s : t) : option bool :=
  to_RegLLVM s ≫= eq_RegLLVM r.

(** Likewise [r != s]. *)
Definition ne (r s : t) : option bool :=
  to_RegLLVM s ≫= ne_RegLLVM r.

End WithTarget.

End Reg.

(** [==] on [Reg] with valid ids holds exactly between registers of the
    same slot id, which is what [<] on [Reg] tells apart. *)
Definition Reg_eq_is_same_slot (T : Target) : Prop :=
  forall r s, Reg.valid T r -> Reg.valid T s ->
    (Reg.eq T r s = Some true <-> Reg.id r = Reg.id s).

(** The expression [n == r] with [n] an [unsigned int] and [r] a [Reg].
    The left operand has no class type, so no member of [Reg] is a
    candidate, the deleted [Reg::operator==(unsigned int)] included; the
    free [operator==(unsigned int, const RegLLVM &)] is, with [r] converted
    by [operator RegLLVM]. *)
Definition uint_eq_Reg (T : Target) (n : Z) (r : Reg.t) : option bool :=
  RegLLVM.uint_eq n <$> Reg.to_RegLLVM T r.

(** Likewise [n != r], by [operator!=(unsigned int, const RegLLVM &)]. *)
Definition uint_ne_Reg (T : Target) (n : Z) (r : Reg.t) : option bool :=
  RegLLVM.uint_ne n <$> Reg.to_RegLLVM T r.

(** ** struct Shadow and enum ShadowReservedTag *)

Module Shadow.

Record t : Set := mk { tag : Z }.

(** [Shadow(uint16_t tag) : tag(tag)] *)
Definition ctor (tg : Z) : t := {| tag := CInt.to_uint16 tg |}.

(** [rword getTag() const { return tag; }] *)
Definition getTag (T : Target) (s : t) : Z := to_rword T (tag s).

End Shadow.

Inductive ShadowReservedTag : Set :=
| MEMORY_TAG_BEGIN
| MEMORY_TAG_END
| Untagged.

(** The enumerators' values; the underlying type is [uint16_t]. *)
Definition ShadowReservedTag_value (e : ShadowReservedTag) : Z :=
  match e with
  | MEMORY_TAG_BEGIN => 0xffe0
  | MEMORY_TAG_END => 0xfff0
  | Untagged => 0xffff
  end.

(** The three kinds of tag the reserved values delimit. *)
Inductive TagKind : Set :=
| MemoryAccessTag   (* in [MEMORY_TAG_BEGIN, MEMORY_TAG_END) *)
| UntaggedTag       (* the value [Untagged] *)
| InstrumentationTag. (* any other value *)

Definition is_memory_tag (tg : Z) : bool :=
  (ShadowReservedTag_value MEMORY_TAG_BEGIN <=? tg)
  && (tg <? ShadowReservedTag_value MEMORY_TAG_END).

Definition is_untagged (tg : Z) : bool :=
  tg =? ShadowReservedTag_value Untagged.

Definition tag_kind (tg : Z) : TagKind :=
  if is_memory_tag tg then MemoryAccessTag
  else if is_untagged tg then UntaggedTag
  else InstrumentationTag.

(** ** struct Constant *)

Module Constant.

Record t : Set := mk { v : Z }.

(** [Constant(rword v) : v(v)] *)
Definition ctor (T : Target) (x : Z) : t := {| v := to_rword T x |}.

(** [operator rword() const { return v; }] *)
Definition to_rword (c : t) : Z := v c.

End Constant.

(** ** struct Offset *)

Module Offset.

Record t : Set := mk { offset : Z }.

(** [Offset(int64_t offset) : offset(offset)] *)
Definition ctor (o : Z) : t := {| offset := CInt.to_int64 o |}.

(** [Offset(Reg reg) : offset(reg.offset())] *)
Definition of_Reg (T : Target) (reg : Reg.t) : t :=
  {| offset := CInt.to_int64 (Reg.offset T reg) |}.

(** [operator int64_t() const { return offset; }] *)
Definition to_int64 (o : t) : Z := offset o.

End Offset.

(** ** struct Temp *)

Module Temp.

Record t : Set := mk { id : Z }.

(** [Temp(unsigned int id) : id(id)] *)
Definition ctor (i : Z) : t := {| id := CInt.to_unsigned_int i |}.

(** [operator unsigned int() const { return id; }] *)
Definition to_unsigned_int (x : t) : Z := id x.

End Temp.

(** ** struct Operand *)

Module Operand.

Record t : Set := mk { idx : Z }.

(** [Operand(unsigned int idx) : idx(idx)] *)
Definition ctor (i : Z) : t := {| idx := CInt.to_unsigned_int i |}.

(** [operator unsigned int() const { return idx; }] *)
Definition to_unsigned_int (x : t) : Z := idx x.

End Operand.

(** ** enum RelocatableInstTag *)

Inductive RelocatableInstTag : Set :=
| RelocInst
| RelocTagChangeScratchRegister
| RelocTagPatchBegin
| RelocTagPreInstMemAccess
| RelocTagPreInstStdCBK
| RelocTagPatchInstBegin
| RelocTagPatchInstEnd
| RelocTagPostInstMemAccess
| RelocTagPostInstStdCBK
| RelocTagInvalid.

Definition RelocatableInstTag_value (e : RelocatableInstTag) : Z :=
  match e with
  | RelocInst => 0
  | RelocTagChangeScratchRegister => 0x1
  | RelocTagPatchBegin => 0x10
  | RelocTagPreInstMemAccess => 0x20
  | RelocTagPreInstStdCBK => 0x21
  | RelocTagPatchInstBegin => 0x30
  | RelocTagPatchInstEnd => 0x31
  | RelocTagPostInstMemAccess => 0x40
  | RelocTagPostInstStdCBK => 0x41
  | RelocTagInvalid => 0xff
  end.

(** ** Sample targets *)

(** A 64-bit target: 8-byte words, the saved registers 64 bytes into the
    context, a table of six registers. *)
Definition target64 : Target := {|
  sizeof_rword := 8;
  sizeof_size_t := 8;
  offsetof_Context_gprState := 64;
  GPR_ID := RegLLVM.ctor <$> [49; 51; 52; 53; 60; 55]
|}.

(** A 32-bit target whose saved registers start the context. *)
Definition target32 : Target := {|
  sizeof_rword := 4;
  sizeof_size_t := 4;
  offsetof_Context_gprState := 0;
  GPR_ID := RegLLVM.ctor <$> [22; 24; 25; 26]
|}.

(** A table in which two slots name the same register. *)
Definition target_aliased : Target := {|
  sizeof_rword := 8;
  sizeof_size_t := 8;
  offsetof_Context_gprState := 0;
  GPR_ID := RegLLVM.ctor <$> [7; 9; 7]
|}.

(** ** Values in the range of their C++ type *)

(** A handle whose [id] is a value of [unsigned int], as is every handle
    the constructor builds. *)
Definition RegLLVM_wf (a : RegLLVM.t) : Prop :=
  CInt.is_unsigned_int (RegLLVM.id a).

(** Every entry of [GPR_ID] is such a handle. *)
Definition GPR_ID_wf (T : Target) : Prop := Forall RegLLVM_wf (GPR_ID T).

(** A [Shadow] whose [tag] is a value of [uint16_t]. *)
Definition Shadow_wf (s : Shadow.t) : Prop := CInt.is_uint16 (Shadow.tag s).

Definition is_int64 (x : Z) : Prop := - 2 ^ 63 <= x < 2 ^ 63.

(** Position of an enumerator in the declaration of [RelocatableInstTag]. *)
Definition RelocatableInstTag_index (e : RelocatableInstTag) : nat :=
  match e with
  | RelocInst => 0
  | RelocTagChangeScratchRegister => 1
  | RelocTagPatchBegin => 2
  | RelocTagPreInstMemAccess => 3
  | RelocTagPreInstStdCBK => 4
  | RelocTagPatchInstBegin => 5
  | RelocTagPatchInstEnd => 6
  | RelocTagPostInstMemAccess => 7
  | RelocTagPostInstStdCBK => 8
  | RelocTagInvalid => 9
  end.

(** * Properties *)

(** ** Integer conversions *)

Lemma to_unsigned_small bits x :
  0 <= x < 2 ^ bits -> CInt.to_unsigned bits x = x.
Proof. intros Hx. unfold CInt.to_unsigned. apply Z.mod_small, Hx. Qed.

Lemma to_unsigned_range bits x :
  0 <= bits -> 0 <= CInt.to_unsigned bits x < 2 ^ bits.
Proof.
  intros Hb. unfold CInt.to_unsigned.
  apply Z.mod_pos_bound, Z.pow_pos_nonneg; lia.
Qed.

Lemma to_int64_small x : 0 <= x < 2 ^ 63 -> CInt.to_int64 x = x.
Proof.
  intros Hx. unfold CInt.to_int64, CInt.to_signed.
  rewrite to_unsigned_small by (change (2 ^ 64) with (2 * 2 ^ 63); lia).
  change (64 - 1) with 63.
  destruct (Z.ltb_spec x (2 ^ 63)); [reflexivity | lia].
Qed.

Lemma to_unsigned_int_small i :
  CInt.is_unsigned_int i -> CInt.to_unsigned_int i = i.
Proof. apply to_unsigned_small. Qed.

(** A type of [n] bytes holds its own size: [n < 2 ^ (8 * n)]. *)
Lemma sizeof_lt_modulus n : 0 < n -> n < 2 ^ (8 * n).
Proof.
  intros Hn.
  pose proof (Z.pow_gt_lin_r 2 (8 * n) ltac:(lia) ltac:(lia)). lia.
Qed.

(** ** The GPR table *)

Section GPRTable.

Variable T : Target.

Lemma GPR_ID_at_lookup i :
  0 <= i -> GPR_ID_at T i = GPR_ID T !! Z.to_nat i.
Proof.
  intros Hi. unfold GPR_ID_at.
  destruct (Z.ltb_spec i 0); [lia | reflexivity].
Qed.

Lemma GPR_ID_at_is_Some i :
  is_Some (GPR_ID_at T i) <-> 0 <= i < NUM_GPR T.
Proof.
  unfold GPR_ID_at, NUM_GPR.
  destruct (Z.ltb_spec i 0) as [Hneg | Hpos].
  - split; [intros [g Hg]; discriminate | lia].
  - rewrite lookup_lt_is_Some. lia.
Qed.

Lemma valid_to_RegLLVM r :
  Reg.valid T r -> exists g, Reg.to_RegLLVM T r = Some g.
Proof. intros Hv. apply GPR_ID_at_is_Some, Hv. Qed.

(** Under [layout_ok] the offset of a valid slot is computed without
    wrap-around and lies before [gprState_end]. *)
Lemma offset_exact r :
  layout_ok T -> Reg.valid T r ->
  Reg.offset T r = offsetof_Context_gprState T + sizeof_rword T * Reg.id r
  /\ 0 <= Reg.offset T r < gprState_end T.
Proof.
  intros [Hw Hb Hs Hr] [Hlo Hhi].
  unfold gprState_end in *.
  assert (Hmul : sizeof_rword T * Reg.id r + sizeof_rword T
                 <= sizeof_rword T * NUM_GPR T) by nia.
  assert (Hid : 0 <= sizeof_rword T * Reg.id r) by nia.
  assert (Hn : NUM_GPR T <= sizeof_rword T * NUM_GPR T) by nia.
  unfold Reg.offset, to_rword, to_size_t.
  rewrite (to_unsigned_small (size_t_bits T) (Reg.id r)) by lia.
  rewrite (to_unsigned_small (size_t_bits T) (_ * _)) by lia.
  rewrite (to_unsigned_small (size_t_bits T)) by lia.
  rewrite to_unsigned_small by lia.
  lia.
Qed.

End GPRTable.

(** ** Sample targets are well laid out *)

Lemma target64_layout_ok : layout_ok target64.
Proof. split; vm_compute; congruence. Defined.

Lemma target32_layout_ok : layout_ok target32.
Proof. split; vm_compute; congruence. Defined.

(** ** Reg::offset *)

(** C1: for a [Reg] whose id is a valid index of the GPR table, [offset()]
    is the offset of the saved GPR block in the context plus id times the
    size of a machine word; hence for two valid consecutive ids the
    offsets differ by the size of a machine word, also when the difference
    is taken in [rword]. *)
Theorem Reg_offset_stride (T : Target) :
  layout_ok T ->
  (forall r, Reg.valid T r ->
     Reg.offset T r = offsetof_Context_gprState T + Reg.id r * sizeof_rword T)
  /\ (forall r s, Reg.valid T r -> Reg.valid T s -> Reg.id s = Reg.id r + 1 ->
        Reg.offset T s - Reg.offset T r = sizeof_rword T
        /\ to_rword T (Reg.offset T s - Reg.offset T r) = sizeof_rword T).
Proof.
  intros Hl. split.
  - intros r Hr. destruct (offset_exact T r Hl Hr) as [-> _]. lia.
  - intros r s Hr Hs Hsucc.
    destruct (offset_exact T r Hl Hr) as [-> _].
    destruct (offset_exact T s Hl Hs) as [-> _].
    rewrite Hsucc.
    replace (_ - _) with (sizeof_rword T) by lia.
    split; [reflexivity |].
    apply to_unsigned_small. unfold rword_bits.
    pose proof (rword_nonempty T Hl) as Hw.
    pose proof (sizeof_lt_modulus (sizeof_rword T) Hw). lia.
Qed.

Lemma Reg_offset_stride_witness :
  Reg.offset target64 (Reg.ctor 2) = 80
  /\ Reg.offset target64 (Reg.ctor 3) - Reg.offset target64 (Reg.ctor 2) = 8.
Proof.
  destruct (Reg_offset_stride target64 target64_layout_ok) as [Hoff Hstride].
  split.
  - apply (Hoff (Reg.ctor 2)). vm_compute. split; congruence.
  - apply (Hstride (Reg.ctor 2) (Reg.ctor 3)).
    + vm_compute. split; congruence.
    + vm_compute. split; congruence.
    + reflexivity.
Defined.

(** ** Reg and RegLLVM *)

(** C3: equality of a [Reg] and a [RegLLVM] goes through the conversion of
    the [Reg]: when [GPR_ID[r.id]] is the handle [g], [r == a] is true
    exactly when [g] and [a] have the same raw id and [r != a] exactly when
    they differ; and [r == a] and [a == r] (likewise [r != a] and
    [a != r]) have the same result. *)
Theorem Reg_RegLLVM_eq_symmetric (T : Target) (r : Reg.t) (a : RegLLVM.t) :
  Reg.eq_RegLLVM T r a = Reg.RegLLVM_eq_Reg T a r
  /\ Reg.ne_RegLLVM T r a = Reg.RegLLVM_ne_Reg T a r
  /\ (Reg.valid T r ->
      exists g, GPR_ID_at T (Reg.id r) = Some g
        /\ Reg.eq_RegLLVM T r a = Some (bool_decide (RegLLVM.id g = RegLLVM.id a))
        /\ Reg.ne_RegLLVM T r a = Some (bool_decide (RegLLVM.id g <> RegLLVM.id a))).
Proof.
  split; [reflexivity |]. split; [reflexivity |].
  intros Hv. destruct (valid_to_RegLLVM T r Hv) as [g Hg].
  exists g. split; [exact Hg |].
  unfold Reg.eq_RegLLVM, Reg.ne_RegLLVM, Reg.RegLLVM_eq_Reg, Reg.RegLLVM_ne_Reg.
  rewrite Hg. cbn. unfold RegLLVM.eq, RegLLVM.ne.
  split; f_equal.
  - destruct (Z.eqb_spec (RegLLVM.id a) (RegLLVM.id g)) as [He | Hne].
    + symmetry. apply bool_decide_eq_true. congruence.
    + symmetry. apply bool_decide_eq_false. congruence.
  - destruct (Z.eqb_spec (RegLLVM.id a) (RegLLVM.id g)) as [He | Hne]; cbn.
    + symmetry. apply bool_decide_eq_false. intros Hd. apply Hd. congruence.
    + symmetry. apply bool_decide_eq_true. congruence.
Qed.

Lemma Reg_RegLLVM_eq_symmetric_witness :
  Reg.eq_RegLLVM target64 (Reg.ctor 1) (RegLLVM.ctor 51) = Some true
  /\ Reg.RegLLVM_eq_Reg target64 (RegLLVM.ctor 51) (Reg.ctor 1) = Some true
  /\ Reg.ne_RegLLVM target64 (Reg.ctor 1) (RegLLVM.ctor 51) = Some false.
Proof.
  destruct (Reg_RegLLVM_eq_symmetric target64 (Reg.ctor 1) (RegLLVM.ctor 51))
    as (Hsym & _ & Hdel).
  destruct Hdel as (g & Hg & Heq & Hne).
  - vm_compute. split; congruence.
  - injection Hg as <-.
    split; [exact Heq |]. split; [rewrite <- Hsym; exact Heq | exact Hne].
Defined.

(** C2: equality between a [Reg] and a bare integer is not rejected in
    both orders.  With the integer on the left, [n == r] and [n != r] are
    the free operators on [r] converted to [RegLLVM]: for every
    [unsigned int] [n] and every [Reg] [r] with a valid id they have a
    Boolean value, which compares [n] with the LLVM id of [GPR_ID[r.id]]
    and not with the slot id of [r]. *)
Theorem uint_eq_Reg_has_value (T : Target) (n : Z) (r : Reg.t) :
  CInt.is_unsigned_int n -> Reg.valid T r ->
  exists g,
    GPR_ID_at T (Reg.id r) = Some g
    /\ uint_eq_Reg T n r = Some (bool_decide (n = RegLLVM.id g))
    /\ uint_ne_Reg T n r = Some (bool_decide (n <> RegLLVM.id g)).
Proof.
  intros Hn Hr. destruct (valid_to_RegLLVM T r Hr) as [g Hg].
  exists g. split; [exact Hg |].
  unfold uint_eq_Reg, uint_ne_Reg. rewrite Hg. cbn.
  unfold RegLLVM.uint_eq, RegLLVM.uint_ne, RegLLVM.eq, RegLLVM.ne. cbn.
  rewrite (to_unsigned_int_small n Hn).
  destruct (Z.eqb_spec (RegLLVM.id g) n) as [He | Hne]; cbn; split; f_equal;
    symmetry.
  - apply bool_decide_eq_true. congruence.
  - apply bool_decide_eq_false. intros Hd. apply Hd. congruence.
  - apply bool_decide_eq_false. congruence.
  - apply bool_decide_eq_true. congruence.
Qed.

Lemma uint_eq_Reg_has_value_witness :
  uint_eq_Reg target64 49 (Reg.ctor 0) = Some true
  /\ uint_ne_Reg target64 49 (Reg.ctor 0) = Some false.
Proof.
  destruct (uint_eq_Reg_has_value target64 49 (Reg.ctor 0))
    as (g & Hg & He & Hn).
  - vm_compute. split; congruence.
  - vm_compute. split; congruence.
  - injection Hg as <-. split; [exact He | exact Hn].
Defined.

(** C4: for a valid id [i], [Reg(i)] converts to the entry [GPR_ID[i]] of
    the table and to no other handle; every [Reg] with that id converts to
    the same handle, and [getValue()] is the raw id, the field [id], of
    that handle. *)
Theorem Reg_to_RegLLVM_table (T : Target) (i : Z) :
  CInt.is_unsigned_int i -> i < NUM_GPR T ->
  exists g,
    GPR_ID T !! Z.to_nat i = Some g
    /\ Reg.to_RegLLVM T (Reg.ctor i) = Some g
    /\ (forall g', Reg.to_RegLLVM T (Reg.ctor i) = Some g' -> g' = g)
    /\ (forall r, Reg.getID r = i -> Reg.to_RegLLVM T r = Some g)
    /\ Reg.getValue T (Reg.ctor i) = Some (RegLLVM.id g).
Proof.
  intros Hu Hi.
  assert (Hid : Reg.id (Reg.ctor i) = i) by (apply to_unsigned_int_small, Hu).
  destruct (proj2 (GPR_ID_at_is_Some T i)) as [g Hg];
    [unfold CInt.is_unsigned_int in Hu; lia |].
  exists g. unfold Reg.to_RegLLVM, Reg.getValue, Reg.getID. rewrite Hid, Hg.
  repeat split.
  - rewrite <- Hg. symmetry. apply GPR_ID_at_lookup.
    unfold CInt.is_unsigned_int in Hu; lia.
  - congruence.
  - intros r ->. exact Hg.
Qed.

Lemma Reg_to_RegLLVM_table_witness :
  Reg.to_RegLLVM target64 (Reg.ctor 4) = Some (RegLLVM.mk 60)
  /\ Reg.getValue target64 (Reg.ctor 4) = Some 60.
Proof.
  destruct (Reg_to_RegLLVM_table target64 4) as (g & Hg & Hc & _ & _ & Hv).
  - vm_compute. split; congruence.
  - reflexivity.
  - injection Hg as <-. split; [exact Hc | exact Hv].
Defined.

(** ** Offset *)

(** C5: an [Offset] built from a [Reg] with a valid id has that register's
    [offset()] as its value (the saved registers lying below 2^63, where
    [rword] and [int64_t] agree); on a target whose words have 8 bytes and whose
    saved GPR block starts 64 bytes into the context, [Offset(Reg(0))] is
    64, so the address it denotes is the base of the context plus 64. *)
Theorem Offset_of_Reg_value (T : Target) :
  (layout_ok T -> layout_in_int64 T -> forall r, Reg.valid T r ->
     Offset.to_int64 (Offset.of_Reg T r) = Reg.offset T r)
  /\ (sizeof_rword T = 8 -> offsetof_Context_gprState T = 64 ->
      0 < sizeof_size_t T ->
      forall base, base + Offset.to_int64 (Offset.of_Reg T (Reg.ctor 0)) = base + 64).
Proof.
  split.
  - intros Hl H64 r Hr. unfold Offset.to_int64, Offset.of_Reg. cbn.
    destruct (offset_exact T r Hl Hr) as [_ Hrange].
    unfold layout_in_int64 in H64.
    apply to_int64_small. lia.
  - intros Hw Hb Hs base. f_equal.
    unfold Offset.to_int64, Offset.of_Reg, Reg.offset, to_rword, to_size_t. cbn.
    unfold rword_bits. rewrite Hw, Hb.
    change (CInt.to_unsigned_int 0) with 0.
    assert (Hpow : 2 ^ 8 <= 2 ^ size_t_bits T)
      by (apply Z.pow_le_mono_r; unfold size_t_bits; lia).
    change (2 ^ 8) with 256 in Hpow.
    rewrite (to_unsigned_small (size_t_bits T) 0) by lia.
    change (8 * 0) with 0.
    rewrite (to_unsigned_small (size_t_bits T) 0) by lia.
    change (64 + 0) with 64.
    rewrite (to_unsigned_small (size_t_bits T) 64) by lia.
    reflexivity.
Qed.

Lemma Offset_of_Reg_value_witness :
  Offset.to_int64 (Offset.of_Reg target64 (Reg.ctor 5))
    = Reg.offset target64 (Reg.ctor 5)
  /\ 4096 + Offset.to_int64 (Offset.of_Reg target64 (Reg.ctor 0)) = 4096 + 64.
Proof.
  destruct (Offset_of_Reg_value target64) as [Hval Hscen]. split.
  - apply (Hval target64_layout_ok).
    + vm_compute. congruence.
    + vm_compute. split; congruence.
  - apply Hscen; reflexivity.
Defined.

(** ** Shadow tags *)

Lemma is_memory_tag_spec tg :
  is_memory_tag tg = true
  <-> ShadowReservedTag_value MEMORY_TAG_BEGIN <= tg
      < ShadowReservedTag_value MEMORY_TAG_END.
Proof. unfold is_memory_tag. rewrite andb_true_iff, Z.leb_le, Z.ltb_lt. tauto. Qed.

Lemma tag_kind_cases tg :
  (is_memory_tag tg = true /\ tag_kind tg = MemoryAccessTag)
  \/ (is_memory_tag tg = false /\ tg = 0xFFFF /\ tag_kind tg = UntaggedTag)
  \/ (is_memory_tag tg = false /\ tg <> 0xFFFF
      /\ tag_kind tg = InstrumentationTag).
Proof.
  unfold tag_kind, is_untagged.
  destruct (is_memory_tag tg); [left; split; reflexivity | right].
  destruct (Z.eqb_spec tg (ShadowReservedTag_value Untagged)) as [He | Hne].
  - left. repeat split. exact He.
  - right. repeat split. exact Hne.
Qed.

(** C6: [MEMORY_TAG_BEGIN] is below [MEMORY_TAG_END], so the memory-access
    range [[MEMORY_TAG_BEGIN, MEMORY_TAG_END)] has an element; [Untagged],
    which is 0xFFFF, is not in that range; the three kinds of tag exclude
    each other, and a tag outside the range and different from 0xFFFF is an
    instrumentation tag. *)
Theorem ShadowReservedTag_namespaces :
  ShadowReservedTag_value MEMORY_TAG_BEGIN < ShadowReservedTag_value MEMORY_TAG_END
  /\ is_memory_tag (ShadowReservedTag_value MEMORY_TAG_BEGIN) = true
  /\ ShadowReservedTag_value Untagged = 0xFFFF
  /\ is_memory_tag (ShadowReservedTag_value Untagged) = false
  /\ (forall e, CInt.is_uint16 (ShadowReservedTag_value e))
  /\ (forall tg, tag_kind tg = MemoryAccessTag <-> is_memory_tag tg = true)
  /\ (forall tg, tag_kind tg = UntaggedTag <-> tg = 0xFFFF)
  /\ (forall tg, tag_kind tg = InstrumentationTag
                 <-> ~ (ShadowReservedTag_value MEMORY_TAG_BEGIN <= tg
                        < ShadowReservedTag_value MEMORY_TAG_END)
                     /\ tg <> 0xFFFF).
Proof.
  split; [reflexivity |]. split; [reflexivity |]. split; [reflexivity |].
  split; [reflexivity |].
  split; [intros []; vm_compute; split; congruence |].
  split; [| split]; intros tg.
  - destruct (tag_kind_cases tg) as [[Hm Hk] | [(Hm & Hu & Hk) | (Hm & Hu & Hk)]];
      rewrite Hk, Hm; split; congruence.
  - destruct (tag_kind_cases tg) as [[Hm Hk] | [(Hm & Hu & Hk) | (Hm & Hu & Hk)]];
      rewrite Hk; split; try congruence.
    intros ->. discriminate Hm.
  - rewrite <- is_memory_tag_spec.
    destruct (tag_kind_cases tg) as [[Hm Hk] | [(Hm & Hu & Hk) | (Hm & Hu & Hk)]];
      rewrite Hk, Hm; split; try congruence; try tauto.
    intros _. split; [discriminate | exact Hu].
Qed.

(** C7: a [Shadow] built with a 16-bit tag [tg] gives back [tg] from
    [getTag()]: the widening to a machine word (of at least 16 bits) does
    not change it, so the result is below 2^16. *)
Theorem Shadow_getTag_ctor (T : Target) (tg : Z) :
  2 <= sizeof_rword T -> CInt.is_uint16 tg ->
  Shadow.getTag T (Shadow.ctor tg) = tg
  /\ Shadow.getTag T (Shadow.ctor tg) < 2 ^ 16.
Proof.
  intros Hw Ht.
  assert (Hget : Shadow.getTag T (Shadow.ctor tg) = tg).
  { unfold Shadow.getTag, Shadow.ctor, CInt.to_uint16, to_rword. cbn.
    rewrite (to_unsigned_small 16) by exact Ht.
    apply to_unsigned_small.
    assert (2 ^ 16 <= 2 ^ rword_bits T)
      by (apply Z.pow_le_mono_r; unfold rword_bits; lia).
    unfold CInt.is_uint16 in Ht. lia. }
  rewrite Hget. split; [reflexivity | apply Ht].
Qed.

Lemma Shadow_getTag_ctor_witness :
  Shadow.getTag target32 (Shadow.ctor 0xffe3) = 0xffe3
  /\ Shadow.getTag target32 (Shadow.ctor 0xffe3) < 2 ^ 16.
Proof.
  apply (Shadow_getTag_ctor target32 0xffe3).
  - vm_compute. congruence.
  - vm_compute. split; congruence.
Defined.

(** ** Constant, Temp, Operand *)

(** C8: a [Constant] built from a machine word converts back to that word,
    a [Temp] built from an unsigned id converts back to that id, and an
    [Operand] built from an unsigned index converts back to that index. *)
Theorem placeholders_round_trip :
  (forall T v, is_rword T v -> Constant.to_rword (Constant.ctor T v) = v)
  /\ (forall i, CInt.is_unsigned_int i -> Temp.to_unsigned_int (Temp.ctor i) = i)
  /\ (forall i, CInt.is_unsigned_int i ->
        Operand.to_unsigned_int (Operand.ctor i) = i).
Proof.
  split; [| split].
  - intros T v Hv. apply to_unsigned_small, Hv.
  - intros i Hi. apply to_unsigned_int_small, Hi.
  - intros i Hi. apply to_unsigned_int_small, Hi.
Qed.

Lemma placeholders_round_trip_witness :
  Constant.to_rword (Constant.ctor target64 0xdeadbeefcafe) = 0xdeadbeefcafe
  /\ Temp.to_unsigned_int (Temp.ctor 0xFFFFFFFF) = 0xFFFFFFFF
  /\ Operand.to_unsigned_int (Operand.ctor 5) = 5.
Proof.
  destruct placeholders_round_trip as (Hc & Ht & Ho).
  split; [| split].
  - apply Hc. vm_compute. split; congruence.
  - apply Ht. vm_compute. split; congruence.
  - apply Ho. vm_compute. split; congruence.
Defined.

(** ** Comparison of RegLLVM *)

Lemma RegLLVM_eq_id (a b : RegLLVM.t) : RegLLVM.id a = RegLLVM.id b -> a = b.
Proof. destruct a, b. cbn. congruence. Qed.

(** C9: on [RegLLVM], [==], [!=] and [<] look at the raw id only: [a == b]
    is [a.id == b.id], [a != b] is its negation and [a < b] is
    [a.id < b.id]; two handles are equal exactly when they have the same
    id, and [<] is a strict total order on handles. *)
Theorem RegLLVM_compare_by_id :
  (forall a b, RegLLVM.eq a b = bool_decide (RegLLVM.id a = RegLLVM.id b))
  /\ (forall a b, RegLLVM.ne a b = negb (RegLLVM.eq a b))
  /\ (forall a b, RegLLVM.lt a b = bool_decide (RegLLVM.id a < RegLLVM.id b))
  /\ (forall a b, RegLLVM.eq a b = true <-> a = b)
  /\ StrictOrder (fun a b => RegLLVM.lt a b = true)
  /\ Trichotomy (fun a b => RegLLVM.lt a b = true).
Proof.
  split; [| split; [| split; [| split; [| split]]]].
  - intros a b. unfold RegLLVM.eq.
    destruct (Z.eqb_spec (RegLLVM.id a) (RegLLVM.id b)); symmetry;
      [apply bool_decide_eq_true | apply bool_decide_eq_false]; assumption.
  - reflexivity.
  - intros a b. unfold RegLLVM.lt.
    destruct (Z.ltb_spec (RegLLVM.id a) (RegLLVM.id b)); symmetry;
      [apply bool_decide_eq_true | apply bool_decide_eq_false]; lia.
  - intros a b. unfold RegLLVM.eq. rewrite Z.eqb_eq. split.
    + apply RegLLVM_eq_id.
    + intros ->. reflexivity.
  - split.
    + intros a. unfold complement, RegLLVM.lt. rewrite Z.ltb_lt. lia.
    + intros a b c. unfold RegLLVM.lt. rewrite !Z.ltb_lt. lia.
  - intros a b. unfold RegLLVM.lt. rewrite !Z.ltb_lt.
    destruct (Z.lt_trichotomy (RegLLVM.id a) (RegLLVM.id b)) as [Hlt | [He | Hgt]].
    + left. exact Hlt.
    + right. left. apply RegLLVM_eq_id, He.
    + right. right. exact Hgt.
Qed.

(** ** Comparison of Reg *)

Section RegCompare.

Variable T : Target.

Lemma Reg_eq_converted r s gr gs :
  Reg.to_RegLLVM T r = Some gr -> Reg.to_RegLLVM T s = Some gs ->
  Reg.eq T r s = Some (RegLLVM.id gs =? RegLLVM.id gr).
Proof.
  intros Hr Hs. unfold Reg.eq, Reg.eq_RegLLVM, Reg.RegLLVM_eq_Reg.
  rewrite Hs. cbn. rewrite Hr. reflexivity.
Qed.

Lemma NoDup_same_slot :
  NoDup (RegLLVM.id <$> GPR_ID T) -> Reg_eq_is_same_slot T.
Proof.
  intros Hnd r s Hr Hs.
  destruct (valid_to_RegLLVM T r Hr) as [gr Hgr].
  destruct (valid_to_RegLLVM T s Hs) as [gs Hgs].
  rewrite (Reg_eq_converted r s gr gs Hgr Hgs).
  unfold Reg.to_RegLLVM in Hgr, Hgs.
  rewrite GPR_ID_at_lookup in Hgr, Hgs by apply Hr || apply Hs.
  split.
  - intros [= Heq%Z.eqb_eq].
    apply Z2Nat.inj; [apply Hr | apply Hs |].
    apply (proj1 (NoDup_alt _) Hnd _ _ (RegLLVM.id gr));
      rewrite list_lookup_fmap.
    + rewrite Hgr. reflexivity.
    + rewrite Hgs. cbn. congruence.
  - intros Hid. rewrite Hid in Hgr.
    assert (gr = gs) as -> by congruence.
    rewrite Z.eqb_refl. reflexivity.
Qed.

Lemma same_slot_NoDup :
  Reg_eq_is_same_slot T -> NoDup (RegLLVM.id <$> GPR_ID T).
Proof.
  intros Hagree. apply NoDup_alt. intros i j x Hi Hj.
  rewrite list_lookup_fmap in Hi, Hj.
  destruct (GPR_ID T !! i) as [gi |] eqn:Hgi; [| discriminate].
  destruct (GPR_ID T !! j) as [gj |] eqn:Hgj; [| discriminate].
  cbn in Hi, Hj.
  pose proof (lookup_lt_Some _ _ _ Hgi) as Hli.
  pose proof (lookup_lt_Some _ _ _ Hgj) as Hlj.
  assert (Hvi : Reg.valid T (Reg.mk (Z.of_nat i)))
    by (unfold Reg.valid, NUM_GPR; cbn; lia).
  assert (Hvj : Reg.valid T (Reg.mk (Z.of_nat j)))
    by (unfold Reg.valid, NUM_GPR; cbn; lia).
  apply Nat2Z.inj.
  apply (proj1 (Hagree _ _ Hvi Hvj)).
  rewrite (Reg_eq_converted _ _ gi gj).
  - f_equal. apply Z.eqb_eq. congruence.
  - unfold Reg.to_RegLLVM. cbn. rewrite GPR_ID_at_lookup by lia.
    rewrite Nat2Z.id. exact Hgi.
  - unfold Reg.to_RegLLVM. cbn. rewrite GPR_ID_at_lookup by lia.
    rewrite Nat2Z.id. exact Hgj.
Qed.

End RegCompare.

Lemma target64_NoDup : NoDup (RegLLVM.id <$> GPR_ID target64).
Proof. apply (bool_decide_unpack _). vm_compute. exact I. Defined.

(** C10: [==] and [<] on [Reg] use different keys.  For valid [r] and [s],
    [r == s] converts both to [RegLLVM] and is true exactly when
    [GPR_ID[r.id]] and [GPR_ID[s.id]] have the same LLVM id, while [r < s]
    compares the slot ids; [==] identifies exactly the registers of equal
    slot id if and only if no two entries of [GPR_ID] have the same LLVM
    id. *)
Theorem Reg_eq_lt_keys (T : Target) :
  (forall r s, Reg.valid T r -> Reg.valid T s ->
     exists gr gs,
       GPR_ID_at T (Reg.id r) = Some gr /\ GPR_ID_at T (Reg.id s) = Some gs
       /\ Reg.eq T r s = Some (bool_decide (RegLLVM.id gr = RegLLVM.id gs)))
  /\ (forall r s, Reg.lt r s = bool_decide (Reg.id r < Reg.id s))
  /\ (Reg_eq_is_same_slot T <-> NoDup (RegLLVM.id <$> GPR_ID T)).
Proof.
  split; [| split].
  - intros r s Hr Hs.
    destruct (valid_to_RegLLVM T r Hr) as [gr Hgr].
    destruct (valid_to_RegLLVM T s Hs) as [gs Hgs].
    exists gr, gs. split; [exact Hgr |]. split; [exact Hgs |].
    rewrite (Reg_eq_converted T r s gr gs Hgr Hgs). f_equal.
    destruct (Z.eqb_spec (RegLLVM.id gs) (RegLLVM.id gr)); symmetry;
      [apply bool_decide_eq_true | apply bool_decide_eq_false]; congruence.
  - intros r s. unfold Reg.lt.
    destruct (Z.ltb_spec (Reg.id r) (Reg.id s)); symmetry;
      [apply bool_decide_eq_true | apply bool_decide_eq_false]; lia.
  - split; [apply same_slot_NoDup | apply NoDup_same_slot].
Qed.

Lemma Reg_eq_lt_keys_witness :
  Reg.eq target64 (Reg.ctor 1) (Reg.ctor 4) = Some false
  /\ (Reg.eq target64 (Reg.ctor 3) (Reg.ctor 3) = Some true
      <-> Reg.id (Reg.ctor 3) = Reg.id (Reg.ctor 3)).
Proof.
  destruct (Reg_eq_lt_keys target64) as (Heq & _ & Hinj).
  split.
  - destruct (Heq (Reg.ctor 1) (Reg.ctor 4)) as (gr & gs & Hgr & Hgs & ->).
    + vm_compute. split; congruence.
    + vm_compute. split; congruence.
    + injection Hgr as <-. injection Hgs as <-. reflexivity.
  - apply (proj2 Hinj target64_NoDup).
    + vm_compute. split; congruence.
    + vm_compute. split; congruence.
Defined.

(** With a table that names one register in two slots, [==] holds between
    two [Reg] that [<] tells apart. *)
Example Reg_eq_lt_disagree_on_aliased_table :
  Reg.valid target_aliased (Reg.ctor 0)
  /\ Reg.valid target_aliased (Reg.ctor 2)
  /\ Reg.eq target_aliased (Reg.ctor 0) (Reg.ctor 2) = Some true
  /\ Reg.lt (Reg.ctor 0) (Reg.ctor 2) = true.
Proof. vm_compute. repeat split; congruence. Qed.


(** * Further properties of Types.h *)

(** ** Reg::offset on every id *)

Lemma pow2_divide r s : 0 <= r <= s -> (2 ^ r | 2 ^ s).
Proof.
  intros Hrs. exists (2 ^ (s - r)).
  rewrite <- Z.pow_add_r by lia. f_equal. lia.
Qed.

Lemma pow2_nonzero r : 0 <= r -> 2 ^ r <> 0.
Proof. intros Hr. pose proof (Z.pow_pos_nonneg 2 r). lia. Qed.

(** The arithmetic of [Reg::offset] carried out in [size_t] and read as an
    [rword] is the arithmetic modulo the size of [rword]. *)
Lemma offset_modular (T : Target) (r : Reg.t) :
  0 <= sizeof_rword T <= sizeof_size_t T ->
  Reg.offset T r
  = to_rword T (offsetof_Context_gprState T + sizeof_rword T * Reg.id r).
Proof.
  intros Hw. unfold Reg.offset, to_rword, to_size_t, CInt.to_unsigned.
  assert (Hdiv : (2 ^ rword_bits T | 2 ^ size_t_bits T))
    by (apply pow2_divide; unfold rword_bits, size_t_bits; lia).
  assert (Hnz : 2 ^ rword_bits T <> 0)
    by (apply pow2_nonzero; unfold rword_bits; lia).
  rewrite (Z.mod_mod_divide _ _ _ Hdiv).
  rewrite Z.add_mod by exact Hnz.
  rewrite (Z.mod_mod_divide _ _ _ Hdiv).
  rewrite (Z.mul_mod (sizeof_rword T) (_ mod _)) by exact Hnz.
  rewrite (Z.mod_mod_divide _ _ _ Hdiv).
  rewrite <- Z.mul_mod by exact Hnz.
  rewrite <- Z.add_mod by exact Hnz.
  reflexivity.
Qed.

(** X1: whatever the id, valid or not, [offset()] is the base offset of the
    saved GPR block plus id times the word size, reduced to a machine word
    ([rword] being no wider than [size_t]); so between an id and the next
    the offsets differ by the word size in machine-word arithmetic, also
    where the sum wraps around. *)
Theorem Reg_offset_modular_stride (T : Target) (r s : Reg.t) :
  0 < sizeof_rword T <= sizeof_size_t T ->
  Reg.offset T r
  = to_rword T (offsetof_Context_gprState T + sizeof_rword T * Reg.id r)
  /\ is_rword T (Reg.offset T r)
  /\ (Reg.id s = Reg.id r + 1 ->
      to_rword T (Reg.offset T s - Reg.offset T r) = sizeof_rword T).
Proof.
  intros Hw.
  assert (Hnz : 2 ^ rword_bits T <> 0)
    by (apply pow2_nonzero; unfold rword_bits; lia).
  split; [apply offset_modular; lia |]. split.
  - rewrite offset_modular by lia.
    apply to_unsigned_range. unfold rword_bits. lia.
  - intros Hnext. rewrite !offset_modular by lia.
    unfold to_rword, CInt.to_unsigned.
    rewrite <- Zminus_mod. rewrite Hnext.
    replace (_ - _) with (sizeof_rword T) by lia.
    apply Z.mod_small. unfold rword_bits.
    pose proof (sizeof_lt_modulus (sizeof_rword T)). lia.
Qed.

Lemma Reg_offset_modular_stride_witness :
  Reg.offset target32 (Reg.ctor 0xFFFFFFFF) = 0xFFFFFFFC
  /\ to_rword target32
       (Reg.offset target32 (Reg.mk 0x40000000)
        - Reg.offset target32 (Reg.mk 0x3FFFFFFF)) = 4.
Proof.
  split.
  - destruct (Reg_offset_modular_stride target32 (Reg.ctor 0xFFFFFFFF)
                (Reg.ctor 0)) as (-> & _ & _).
    + vm_compute. split; congruence.
    + reflexivity.
  - destruct (Reg_offset_modular_stride target32 (Reg.mk 0x3FFFFFFF)
                (Reg.mk 0x40000000)) as (_ & _ & Hs).
    + vm_compute. split; congruence.
    + apply Hs. reflexivity.
Defined.

(** ** The slots of the saved registers *)

(** X2: on a well laid out target the slots of valid registers lie inside
    the saved GPR block, at a multiple of the word size from its start,
    and do not overlap: a register of smaller id ends where or before the
    next one starts, and two registers with the same offset are the same
    register. *)
Theorem Reg_offset_slots_disjoint (T : Target) (r s : Reg.t) :
  layout_ok T -> Reg.valid T r -> Reg.valid T s ->
  (offsetof_Context_gprState T <= Reg.offset T r
   /\ Reg.offset T r + sizeof_rword T <= gprState_end T)
  /\ (Reg.offset T r - offsetof_Context_gprState T) mod sizeof_rword T = 0
  /\ (Reg.lt r s = true -> Reg.offset T r + sizeof_rword T <= Reg.offset T s)
  /\ (Reg.offset T r = Reg.offset T s -> r = s).
Proof.
  intros Hl Hr Hs.
  destruct (offset_exact T r Hl Hr) as [Er _].
  destruct (offset_exact T s Hl Hs) as [Es _].
  pose proof (rword_nonempty T Hl) as Hw.
  destruct Hr as [Hr0 Hr1]. destruct Hs as [Hs0 Hs1].
  rewrite Er, Es. unfold gprState_end.
  split; [split; nia |]. split; [| split].
  - replace (_ - _) with (Reg.id r * sizeof_rword T) by lia.
    apply Z.mod_mul. lia.
  - unfold Reg.lt. rewrite Z.ltb_lt. nia.
  - intros He. assert (Reg.id r = Reg.id s) by nia.
    destruct r, s. cbn in *. congruence.
Qed.

Lemma Reg_offset_slots_disjoint_witness :
  Reg.offset target64 (Reg.ctor 1) + 8 <= Reg.offset target64 (Reg.ctor 4).
Proof.
  destruct (Reg_offset_slots_disjoint target64 (Reg.ctor 1) (Reg.ctor 4))
    as (_ & _ & Hlt & _).
  - exact target64_layout_ok.
  - vm_compute. split; congruence.
  - vm_compute. split; congruence.
  - apply Hlt. reflexivity.
Defined.

(** ** Offset *)

Lemma to_int64_range x : is_int64 (CInt.to_int64 x).
Proof.
  unfold is_int64, CInt.to_int64, CInt.to_signed.
  pose proof (to_unsigned_range 64 x ltac:(lia)) as Hu.
  change (64 - 1) with 63.
  change (2 ^ 64) with (2 * 2 ^ 63) in *.
  destruct (Z.ltb_spec (CInt.to_unsigned 64 x) (2 ^ 63)); lia.
Qed.

Lemma to_int64_of_int64 x : is_int64 x -> CInt.to_int64 x = x.
Proof.
  intros Hx. unfold is_int64 in Hx.
  destruct (Z.le_gt_cases 0 x) as [Hpos | Hneg].
  - apply to_int64_small. lia.
  - unfold CInt.to_int64, CInt.to_signed, CInt.to_unsigned.
    change (64 - 1) with 63.
    assert (Hm : x mod 2 ^ 64 = x + 2 ^ 64).
    { rewrite <- (Z.mod_add x 1 (2 ^ 64)) by (apply pow2_nonzero; lia).
      apply Z.mod_small. change (2 ^ 64) with (2 * 2 ^ 63). lia. }
    rewrite Hm.
    destruct (Z.ltb_spec (x + 2 ^ 64) (2 ^ 63)) as [Hlt | Hge].
    + change (2 ^ 64) with (2 * 2 ^ 63) in Hlt. lia.
    + lia.
Qed.

(** X3: an [Offset] built from a signed 64-bit value, negative ones
    included, converts back to that value; whatever it is built from, by
    [Offset(int64_t)] or by [Offset(Reg)], its value is a signed 64-bit
    integer. *)
Theorem Offset_ctor_round_trip :
  (forall o, is_int64 o -> Offset.to_int64 (Offset.ctor o) = o)
  /\ (forall o, is_int64 (Offset.to_int64 (Offset.ctor o)))
  /\ (forall T r, is_int64 (Offset.to_int64 (Offset.of_Reg T r))).
Proof.
  split; [| split].
  - intros o Ho. apply to_int64_of_int64, Ho.
  - intros o. apply to_int64_range.
  - intros T r. apply to_int64_range.
Qed.

Lemma Offset_ctor_round_trip_witness :
  Offset.to_int64 (Offset.ctor (-8)) = -8.
Proof.
  apply (proj1 Offset_ctor_round_trip). vm_compute. split; congruence.
Defined.

(** X4: on a well laid out target whose saved registers lie below 2^63,
    the [Offset] of a valid register is not negative, the [Offset] of the
    next register is one word size further, and two valid registers with
    the same [Offset] are the same register. *)
Theorem Offset_of_Reg_distinct (T : Target) (r s : Reg.t) :
  layout_ok T -> layout_in_int64 T -> Reg.valid T r -> Reg.valid T s ->
  0 <= Offset.to_int64 (Offset.of_Reg T r)
  /\ (Reg.id s = Reg.id r + 1 ->
      Offset.to_int64 (Offset.of_Reg T s)
      = Offset.to_int64 (Offset.of_Reg T r) + sizeof_rword T)
  /\ (Offset.of_Reg T r = Offset.of_Reg T s -> r = s).
Proof.
  intros Hl H64 Hr Hs. unfold layout_in_int64 in H64.
  destruct (offset_exact T r Hl Hr) as [Er Rr].
  destruct (offset_exact T s Hl Hs) as [Es Rs].
  pose proof (rword_nonempty T Hl) as Hw.
  unfold Offset.to_int64, Offset.of_Reg. cbn.
  rewrite !to_int64_small by lia.
  split; [lia |]. split.
  - intros Hn. rewrite Er, Es, Hn. lia.
  - intros [= He]. rewrite Er, Es in He. assert (Reg.id r = Reg.id s) by nia.
    destruct r, s. cbn in *. congruence.
Qed.

Lemma Offset_of_Reg_distinct_witness :
  Offset.to_int64 (Offset.of_Reg target64 (Reg.ctor 3))
  = Offset.to_int64 (Offset.of_Reg target64 (Reg.ctor 2)) + 8.
Proof.
  destruct (Offset_of_Reg_distinct target64 (Reg.ctor 2) (Reg.ctor 3))
    as (_ & Hn & _).
  - exact target64_layout_ok.
  - vm_compute. congruence.
  - vm_compute. split; congruence.
  - vm_compute. split; congruence.
  - apply Hn. reflexivity.
Defined.

(** ** Order and equality of Reg *)

Lemma Reg_eq_id (r s : Reg.t) : Reg.id r = Reg.id s -> r = s.
Proof. destruct r, s. cbn. congruence. Qed.

(** X5: [operator<] of [Reg] is a strict total order on the handles: it
    is irreflexive and transitive, and of two different handles one is
    below the other, which is what a [std::set<Reg>] needs of its key. *)
Theorem Reg_lt_strict_total_order :
  StrictOrder (fun r s => Reg.lt r s = true)
  /\ Trichotomy (fun r s => Reg.lt r s = true)
  /\ (forall r s, Reg.lt r s = false -> Reg.lt s r = false -> r = s).
Proof.
  split; [| split].
  - split.
    + intros r. unfold complement, Reg.lt. rewrite Z.ltb_lt. lia.
    + intros r s u. unfold Reg.lt. rewrite !Z.ltb_lt. lia.
  - intros r s. unfold Reg.lt. rewrite !Z.ltb_lt.
    destruct (Z.lt_trichotomy (Reg.id r) (Reg.id s)) as [Hlt | [He | Hgt]].
    + left. exact Hlt.
    + right. left. apply Reg_eq_id, He.
    + right. right. exact Hgt.
  - intros r s. unfold Reg.lt. rewrite !Z.ltb_ge.
    intros H1 H2. apply Reg_eq_id. lia.
Qed.

Lemma Reg_lt_strict_total_order_witness :
  Reg.ctor 7 = Reg.mk 7.
Proof.
  apply (proj2 (proj2 Reg_lt_strict_total_order)); reflexivity.
Defined.

(** X6: [==] between two [Reg] gives the same result in both orders,
    whatever the ids; on valid ids it is reflexive, and it is transitive:
    it is an equivalence on the valid handles, also when the table names
    a register twice. *)
Theorem Reg_eq_equivalence (T : Target) :
  (forall r s, Reg.eq T r s = Reg.eq T s r)
  /\ (forall r, Reg.valid T r -> Reg.eq T r r = Some true)
  /\ (forall r s u, Reg.eq T r s = Some true -> Reg.eq T s u = Some true ->
        Reg.eq T r u = Some true).
Proof.
  split; [| split].
  - intros r s. unfold Reg.eq, Reg.eq_RegLLVM, Reg.RegLLVM_eq_Reg.
    destruct (Reg.to_RegLLVM T r) as [gr |], (Reg.to_RegLLVM T s) as [gs |];
      cbn; try reflexivity.
    unfold RegLLVM.eq. rewrite Z.eqb_sym. reflexivity.
  - intros r Hr. destruct (valid_to_RegLLVM T r Hr) as [g Hg].
    rewrite (Reg_eq_converted T r r g g Hg Hg), Z.eqb_refl. reflexivity.
  - intros r s u. unfold Reg.eq, Reg.eq_RegLLVM, Reg.RegLLVM_eq_Reg.
    destruct (Reg.to_RegLLVM T r) as [gr |], (Reg.to_RegLLVM T s) as [gs |],
      (Reg.to_RegLLVM T u) as [gu |]; cbn; try discriminate.
    unfold RegLLVM.eq. intros [= H1%Z.eqb_eq] [= H2%Z.eqb_eq].
    f_equal. apply Z.eqb_eq. congruence.
Qed.

Lemma Reg_eq_equivalence_witness :
  Reg.eq target_aliased (Reg.ctor 0) (Reg.ctor 2) = Some true
  /\ Reg.eq target_aliased (Reg.ctor 2) (Reg.ctor 2) = Some true.
Proof.
  destruct (Reg_eq_equivalence target_aliased) as (_ & Hrefl & Htrans).
  assert (Hv : Reg.valid target_aliased (Reg.ctor 2))
    by (vm_compute; split; congruence).
  split.
  - apply (Htrans (Reg.ctor 0) (Reg.ctor 2) (Reg.ctor 2)).
    + reflexivity.
    + apply Hrefl, Hv.
  - apply Hrefl, Hv.
Defined.

(** X7: every [!=] of Types.h is the negation of the [==] on the same
    operands: between an integer and a [RegLLVM], between a [Reg] and a
    [RegLLVM] in both orders, and between two [Reg]; where [==] has no
    result (an id past the table) [!=] has none either. *)
Theorem ne_is_negation_of_eq (T : Target) :
  (forall i a, RegLLVM.uint_ne i a = negb (RegLLVM.uint_eq i a))
  /\ (forall a r, Reg.RegLLVM_ne_Reg T a r = negb <$> Reg.RegLLVM_eq_Reg T a r)
  /\ (forall r a, Reg.ne_RegLLVM T r a = negb <$> Reg.eq_RegLLVM T r a)
  /\ (forall r s, Reg.ne T r s = negb <$> Reg.eq T r s).
Proof.
  assert (Hmixed : forall a r,
             Reg.RegLLVM_ne_Reg T a r = negb <$> Reg.RegLLVM_eq_Reg T a r).
  { intros a r. unfold Reg.RegLLVM_ne_Reg, Reg.RegLLVM_eq_Reg.
    destruct (Reg.to_RegLLVM T r); reflexivity. }
  split; [reflexivity |]. split; [exact Hmixed |]. split.
  - intros r a. apply Hmixed.
  - intros r s. unfold Reg.ne, Reg.eq, Reg.ne_RegLLVM, Reg.eq_RegLLVM.
    destruct (Reg.to_RegLLVM T s) as [gs |]; cbn; [apply Hmixed | reflexivity].
Qed.

(** X8: the conversion of a [Reg], its [getValue()] and its comparisons
    read [GPR_ID] at the ids of their operands and nowhere else: each has
    a result exactly when those ids are indices of the table. *)
Theorem Reg_operations_defined_iff_valid (T : Target) (r s : Reg.t)
    (a : RegLLVM.t) :
  (is_Some (Reg.to_RegLLVM T r) <-> Reg.valid T r)
  /\ (is_Some (Reg.getValue T r) <-> Reg.valid T r)
  /\ (is_Some (Reg.eq_RegLLVM T r a) <-> Reg.valid T r)
  /\ (is_Some (Reg.RegLLVM_eq_Reg T a r) <-> Reg.valid T r)
  /\ (is_Some (Reg.eq T r s) <-> Reg.valid T r /\ Reg.valid T s)
  /\ (is_Some (Reg.ne T r s) <-> Reg.valid T r /\ Reg.valid T s).
Proof.
  assert (Hconv : forall x, is_Some (Reg.to_RegLLVM T x) <-> Reg.valid T x)
    by (intros x; apply GPR_ID_at_is_Some).
  assert (Hmixed : is_Some (Reg.RegLLVM_eq_Reg T a r) <-> Reg.valid T r).
  { unfold Reg.RegLLVM_eq_Reg. rewrite fmap_is_Some. apply Hconv. }
  split; [apply Hconv |]. split.
  { unfold Reg.getValue. rewrite fmap_is_Some. apply Hconv. }
  split; [exact Hmixed |]. split; [exact Hmixed |].
  rewrite <- (Hconv r), <- (Hconv s).
  unfold Reg.ne, Reg.eq, Reg.ne_RegLLVM, Reg.eq_RegLLVM,
    Reg.RegLLVM_ne_Reg, Reg.RegLLVM_eq_Reg.
  split.
  - destruct (Reg.to_RegLLVM T s) as [gs |], (Reg.to_RegLLVM T r) as [gr |];
      cbn; split; intros H; try (destruct H as [? ?]; discriminate);
      try (destruct H as [[? ?] [? ?]]; discriminate); eauto.
  - destruct (Reg.to_RegLLVM T s) as [gs |], (Reg.to_RegLLVM T r) as [gr |];
      cbn; split; intros H; try (destruct H as [? ?]; discriminate);
      try (destruct H as [[? ?] [? ?]]; discriminate); eauto.
Qed.

Lemma Reg_operations_defined_iff_valid_witness :
  Reg.to_RegLLVM target32 (Reg.ctor 4) = None
  /\ Reg.eq target32 (Reg.ctor 0) (Reg.ctor 4) = None.
Proof.
  destruct (Reg_operations_defined_iff_valid target32 (Reg.ctor 0) (Reg.ctor 4)
              RegLLVM.ctor_default) as (_ & _ & _ & _ & He & _).
  destruct (Reg_operations_defined_iff_valid target32 (Reg.ctor 4) (Reg.ctor 4)
              RegLLVM.ctor_default) as (Hc & _).
  assert (Hinv : ~ Reg.valid target32 (Reg.ctor 4)).
  { vm_compute. intros [_ Hlt]. discriminate Hlt. }
  split.
  - apply eq_None_not_Some. intros Hs. apply Hinv, Hc, Hs.
  - apply eq_None_not_Some. intros Hs. apply Hinv, (proj1 He Hs).
Defined.

(** ** RegLLVM and integers *)

Lemma RegLLVM_ctor_id i :
  CInt.is_unsigned_int i -> RegLLVM.id (RegLLVM.ctor i) = i.
Proof. apply to_unsigned_int_small. Qed.

Lemma RegLLVM_ctor_getValue a :
  RegLLVM_wf a -> RegLLVM.ctor (RegLLVM.getValue a) = a.
Proof.
  intros Ha. apply RegLLVM_eq_id. apply RegLLVM_ctor_id, Ha.
Qed.

(** X9: the free [operator==(unsigned int, const RegLLVM &)] compares the
    integer with the raw id: for an [unsigned int] [i], [i == reg] is true
    exactly when [i] is [reg.getValue()]; it is [RegLLVM(i) == reg] with
    the member operator; and a handle always equals its own
    [getValue()]. *)
Theorem uint_eq_RegLLVM_by_value (i : Z) (reg : RegLLVM.t) :
  CInt.is_unsigned_int i ->
  (RegLLVM.uint_eq i reg = true <-> i = RegLLVM.getValue reg)
  /\ RegLLVM.uint_eq i reg = RegLLVM.eq (RegLLVM.ctor i) reg
  /\ (RegLLVM_wf reg -> RegLLVM.uint_eq (RegLLVM.getValue reg) reg = true).
Proof.
  intros Hi. unfold RegLLVM.uint_eq, RegLLVM.eq, RegLLVM.getValue.
  rewrite (RegLLVM_ctor_id i Hi).
  split; [rewrite Z.eqb_eq; split; congruence |].
  split; [apply Z.eqb_sym |].
  intros Hw. rewrite (RegLLVM_ctor_id _ Hw). apply Z.eqb_refl.
Qed.

Lemma uint_eq_RegLLVM_by_value_witness :
  RegLLVM.uint_eq 51 (RegLLVM.ctor 51) = true.
Proof.
  apply (proj1 (uint_eq_RegLLVM_by_value 51 (RegLLVM.ctor 51)
                  ltac:(vm_compute; split; congruence))).
  reflexivity.
Defined.

(** X10: the two register handles hold the [unsigned int] they are built
    from: [RegLLVM(i).getValue()] and [Reg(i).getID()] are [i];
    rebuilding a [RegLLVM] from its [getValue()] gives the same handle;
    different integers give different handles; and the default
    [RegLLVM()] has id 0. *)
Theorem register_handles_round_trip :
  (forall i, CInt.is_unsigned_int i -> RegLLVM.getValue (RegLLVM.ctor i) = i)
  /\ (forall a, RegLLVM_wf a -> RegLLVM.ctor (RegLLVM.getValue a) = a)
  /\ (forall i, CInt.is_unsigned_int i -> Reg.getID (Reg.ctor i) = i)
  /\ (forall i j, CInt.is_unsigned_int i -> CInt.is_unsigned_int j ->
        (RegLLVM.ctor i = RegLLVM.ctor j -> i = j)
        /\ (Reg.ctor i = Reg.ctor j -> i = j))
  /\ RegLLVM.getValue RegLLVM.ctor_default = 0.
Proof.
  split; [exact RegLLVM_ctor_id |]. split; [exact RegLLVM_ctor_getValue |].
  split; [intros i Hi; apply to_unsigned_int_small, Hi |].
  split; [| reflexivity].
  intros i j Hi Hj. split.
  - intros He. rewrite <- (RegLLVM_ctor_id i Hi), <- (RegLLVM_ctor_id j Hj).
    congruence.
  - intros [= He]. rewrite !to_unsigned_int_small in He by assumption.
    exact He.
Qed.

Lemma register_handles_round_trip_witness :
  RegLLVM.getValue (RegLLVM.ctor 0xFFFFFFFF) = 0xFFFFFFFF
  /\ Reg.getID (Reg.ctor 17) = 17.
Proof.
  destruct register_handles_round_trip as (Hv & _ & Hid & _).
  split; [apply Hv | apply Hid]; vm_compute; split; congruence.
Defined.

(** X11: on a table of [unsigned int] ids, [getValue()] of a valid [Reg]
    is the id of the handle it converts to: the conversion is
    [RegLLVM(r.getValue())], the [Reg] equals that handle, and the integer
    [r.getValue()] equals the converted handle. *)
Theorem Reg_getValue_conversion (T : Target) (r : Reg.t) :
  GPR_ID_wf T -> Reg.valid T r ->
  exists v,
    Reg.getValue T r = Some v
    /\ CInt.is_unsigned_int v
    /\ Reg.to_RegLLVM T r = Some (RegLLVM.ctor v)
    /\ Reg.eq_RegLLVM T r (RegLLVM.ctor v) = Some true
    /\ RegLLVM.uint_eq v <$> Reg.to_RegLLVM T r = Some true.
Proof.
  intros Hwf Hr. destruct (valid_to_RegLLVM T r Hr) as [g Hg].
  assert (Hgw : RegLLVM_wf g).
  { unfold Reg.to_RegLLVM in Hg. rewrite GPR_ID_at_lookup in Hg by apply Hr.
    unfold GPR_ID_wf in Hwf. rewrite Forall_lookup in Hwf.
    apply (Hwf _ _ Hg). }
  exists (RegLLVM.id g).
  unfold Reg.getValue, Reg.eq_RegLLVM, Reg.RegLLVM_eq_Reg.
  unfold Reg.to_RegLLVM in *. rewrite Hg. cbn.
  change (RegLLVM.ctor (RegLLVM.id g)) with (RegLLVM.ctor (RegLLVM.getValue g)).
  rewrite (RegLLVM_ctor_getValue g Hgw).
  split; [reflexivity |]. split; [exact Hgw |]. split; [reflexivity |].
  split; f_equal.
  - apply Z.eqb_refl.
  - unfold RegLLVM.uint_eq.
    change (RegLLVM.ctor (RegLLVM.id g)) with (RegLLVM.ctor (RegLLVM.getValue g)).
    rewrite (RegLLVM_ctor_getValue g Hgw). apply Z.eqb_refl.
Qed.

Lemma target64_GPR_ID_wf : GPR_ID_wf target64.
Proof. repeat constructor; vm_compute; congruence. Defined.

Lemma Reg_getValue_conversion_witness :
  Reg.eq_RegLLVM target64 (Reg.ctor 4) (RegLLVM.ctor 60) = Some true.
Proof.
  destruct (Reg_getValue_conversion target64 (Reg.ctor 4) target64_GPR_ID_wf)
    as (v & Hv & _ & _ & He & _).
  - vm_compute. split; congruence.
  - injection Hv as <-. exact He.
Defined.

(** ** Shadow *)

(** X12: [getTag()] never leaves the 16 bits of the tag: a [Shadow] built
    from any integer returns that integer modulo 2^16; a [Shadow] returns
    its tag unchanged, so two [Shadow] with the same [getTag()] are the
    same, and a tag keeps its kind (memory access, untagged,
    instrumentation) through [Shadow] and [getTag()]. *)
Theorem Shadow_getTag_truncates (T : Target) :
  2 <= sizeof_rword T ->
  (forall tg, Shadow.getTag T (Shadow.ctor tg) = tg mod 2 ^ 16)
  /\ (forall s, Shadow_wf s -> Shadow.getTag T s = Shadow.tag s)
  /\ (forall s1 s2, Shadow_wf s1 -> Shadow_wf s2 ->
        Shadow.getTag T s1 = Shadow.getTag T s2 -> s1 = s2)
  /\ (forall tg, CInt.is_uint16 tg ->
        tag_kind (Shadow.getTag T (Shadow.ctor tg)) = tag_kind tg).
Proof.
  intros Hw.
  assert (Hpow : 2 ^ 16 <= 2 ^ rword_bits T)
    by (apply Z.pow_le_mono_r; unfold rword_bits; lia).
  assert (Hget : forall s, Shadow_wf s -> Shadow.getTag T s = Shadow.tag s).
  { intros s Hs. unfold Shadow.getTag, to_rword. apply to_unsigned_small.
    unfold Shadow_wf, CInt.is_uint16 in Hs. lia. }
  assert (Hctor : forall tg, Shadow_wf (Shadow.ctor tg)).
  { intros tg. unfold Shadow_wf, Shadow.ctor, CInt.to_uint16. cbn.
    apply (to_unsigned_range 16). lia. }
  split; [| split; [exact Hget | split]].
  - intros tg. rewrite (Hget _ (Hctor tg)). reflexivity.
  - intros s1 s2 H1 H2. rewrite (Hget s1 H1), (Hget s2 H2).
    destruct s1, s2. cbn. congruence.
  - intros tg Htg. rewrite (Hget _ (Hctor tg)).
    unfold Shadow.ctor, CInt.to_uint16. cbn.
    rewrite (to_unsigned_small 16 tg Htg). reflexivity.
Qed.

Lemma Shadow_getTag_truncates_witness :
  Shadow.getTag target64 (Shadow.ctor 0x1ffe0) = 0xffe0
  /\ tag_kind (Shadow.getTag target64 (Shadow.ctor 0xffff)) = UntaggedTag.
Proof.
  destruct (Shadow_getTag_truncates target64) as (Hmod & _ & _ & Hkind).
  - vm_compute. congruence.
  - split.
    + rewrite Hmod. reflexivity.
    + rewrite Hkind; [reflexivity | vm_compute; split; congruence].
Defined.

(** ** RelocatableInstTag *)

(** X13: the values of [RelocatableInstTag] tell the tags apart and grow
    with the order of declaration, from [RelocInst] = 0 up to
    [RelocTagInvalid] = 0xff, the only tag with that value; all fit in one
    byte. *)
Theorem RelocatableInstTag_values_ordered :
  (forall e1 e2,
     RelocatableInstTag_value e1 = RelocatableInstTag_value e2 -> e1 = e2)
  /\ (forall e1 e2,
        (RelocatableInstTag_index e1 < RelocatableInstTag_index e2)%nat
        <-> RelocatableInstTag_value e1 < RelocatableInstTag_value e2)
  /\ (forall e, 0 <= RelocatableInstTag_value e <= 0xff)
  /\ (forall e, RelocatableInstTag_value e = 0xff <-> e = RelocTagInvalid)
  /\ (forall e, RelocatableInstTag_value e = 0 <-> e = RelocInst).
Proof.
  split; [| split; [| split; [| split]]].
  - intros [] []; cbn; intros H; try reflexivity; discriminate H.
  - intros [] []; cbn; lia.
  - intros []; cbn; lia.
  - intros []; cbn; split; intros H; try reflexivity; discriminate H.
  - intros []; cbn; split; intros H; try reflexivity; discriminate H.
Qed.

Lemma RelocatableInstTag_values_ordered_witness :
  RelocatableInstTag_value RelocTagPreInstStdCBK
  < RelocatableInstTag_value RelocTagPatchInstBegin.
Proof.
  apply (proj1 (proj2 RelocatableInstTag_values_ordered)). cbn. lia.
Defined.
